(** * Wwise_IDs.h: the generated table of sound-bank identifiers

    The header [Assets/StreamingAssets/Audio/GeneratedSoundBanks/Wwise_IDs.h]
    is a tree of C++ namespaces whose leaves are declarations of the form
    [static const AkUniqueID NAME = <literal>U;].  The development embeds the
    header as that tree, gives qualified name lookup on it, and derives from
    the tree the views (categories, entries, identifiers) the properties of
    the table are stated on. *)

From Stdlib Require Import ZArith List String Ascii Bool Lia Sorted.
Import ListNotations.
Local Open Scope string_scope.
Local Open Scope Z_scope.

Set Warnings "-register-all".

(** ** The identifier type *)

(** Modelled from the spec: the typedef [AkUniqueID] is declared by
    [<AK/SoundEngine/Common/AkTypes.h>], which the header includes and the
    repository does not contain; the specification gives it as a 32-bit
    unsigned integer. *)
Definition AkUniqueID_width : Z := 32.

Definition AkUniqueID : Type := Z.

Definition AkUniqueID_modulus : Z := 2 ^ AkUniqueID_width.

(** Initialising an [AkUniqueID] from an unsigned literal keeps the literal
    modulo [2 ^ 32]. *)
Definition to_AkUniqueID (literal : Z) : AkUniqueID :=
  literal mod AkUniqueID_modulus.

(** ** Declarations *)

Inductive cv_qualifier : Type :=
| cv_const
| cv_none.

(** [Object cv NAME lit] is [static <cv> AkUniqueID NAME = litU;] and
    [Namespace NAME body] is [namespace NAME { body }]. *)
Inductive Decl : Type :=
| Object (cv : cv_qualifier) (name : string) (init : Z)
| Namespace (name : string) (body : list Decl).

Abbreviation static_const := (Object cv_const).

Definition decl_name (d : Decl) : string :=
  match d with
  | Object _ n _ => n
  | Namespace n _ => n
  end.

(** ** The header, namespace by namespace *)

Definition EVENTS : Decl :=
  Namespace "EVENTS"
    [ static_const "PAUSE_DOORKNOCK" 1900919716;
      static_const "PLAY_CALIBRATION" 9035486;
      static_const "PLAY_DOOR_OPEN" 1660008929;
      static_const "PLAY_DOORKNOCK" 543223178;
      static_const "PLAY_E_FOOTSTEPS_WETDIRT" 3953117089;
      static_const "PLAY_ENEMY_DETECT" 643576792;
      static_const "PLAY_ENEMY_ENTRY" 192556355;
      static_const "PLAY_ENEMYBREATH" 1738249236;
      static_const "PLAY_LEVER" 3196500978;
      static_const "PLAY_MUSIC" 2932040671;
      static_const "PLAY_OUTRO" 431014199;
      static_const "PLAY_P_FOOTSTEPS" 1896114910 ].

Definition AFFECTED_STATES : Decl :=
  Namespace "AFFECTED_STATES"
    [ static_const "GROUP" 2719039974;
      Namespace "STATE"
        [ static_const "EXCITE" 2286778635;
          static_const "MODERATE" 1747842238;
          static_const "NONE" 748895195;
          static_const "RELAX" 3551080421 ] ].

Definition STATES : Decl :=
  Namespace "STATES" [ AFFECTED_STATES ].

Definition P_FOOTSTEP : Decl :=
  Namespace "P_FOOTSTEP"
    [ static_const "GROUP" 3806491964;
      Namespace "SWITCH"
        [ static_const "DIRT" 2195636714;
          static_const "WOOD" 2058049674 ] ].

Definition SWITCHES : Decl :=
  Namespace "SWITCHES" [ P_FOOTSTEP ].

Definition BANKS : Decl :=
  Namespace "BANKS"
    [ static_const "INIT" 1355168291;
      static_const "MAIN" 3161908922 ].

Definition BUSSES : Decl :=
  Namespace "BUSSES"
    [ static_const "MASTER_AUDIO_BUS" 3803692087 ].

Definition AUDIO_DEVICES : Decl :=
  Namespace "AUDIO_DEVICES"
    [ static_const "NO_OUTPUT" 2317455096;
      static_const "SYSTEM" 3859886410 ].

Definition AK : Decl :=
  Namespace "AK" [ EVENTS; STATES; SWITCHES; BANKS; BUSSES; AUDIO_DEVICES ].

(** The declarations the header adds to the global scope. *)
Definition Wwise_IDs_h : list Decl := [ AK ].

(** ** Declared constants and qualified lookup *)

Definition QualifiedName : Type := list string.

Definition qualify (n : string) (s : QualifiedName * AkUniqueID)
  : QualifiedName * AkUniqueID :=
  (n :: fst s, snd s).

(** Every constant a declaration introduces, with its qualified name and the
    value it holds, in the order of the header. *)
Fixpoint declared (d : Decl) : list (QualifiedName * AkUniqueID) :=
  match d with
  | Object _ n lit => [ ([n], to_AkUniqueID lit) ]
  | Namespace n body => map (qualify n) (flat_map declared body)
  end.

Definition declared_in (scope : list Decl) : list (QualifiedName * AkUniqueID) :=
  flat_map declared scope.

Definition named (n : string) (d : Decl) : bool :=
  String.eqb (decl_name d) n.

(** Qualified name lookup [A::B::C] from a scope: [None] is the unresolved
    symbol, which the compiler reports when the consumer is built.  The
    declaration taken is the first one with the name, which is the rule of C++
    on the units where no scope declares a name twice, as the header alone
    ([scope_ok] below); blocks of a reopened namespace are not merged. *)
Fixpoint lookup (scope : list Decl) (q : QualifiedName) {struct q}
  : option AkUniqueID :=
  match q with
  | [] => None
  | n :: rest =>
      match find (named n) scope with
      | None => None
      | Some (Object _ _ lit) =>
          match rest with
          | [] => Some (to_AkUniqueID lit)
          | _ :: _ => None
          end
      | Some (Namespace _ body) => lookup body rest
      end
  end.

(** The identifiers of the table, in the order of the header. *)
Definition ids_of (scope : list Decl) : list AkUniqueID :=
  map snd (declared_in scope).

Definition all_ids : list AkUniqueID := ids_of Wwise_IDs_h.

Definition all_symbols : list QualifiedName := map fst (declared_in Wwise_IDs_h).

(** ** Categories and entries

    The categories are the namespaces directly inside [AK].  [EVENTS], [BANKS],
    [BUSSES] and [AUDIO_DEVICES] hold constants; [STATES] and [SWITCHES] hold
    one namespace per group, and a group holds the constant [GROUP] and an
    inner namespace ([STATE], [SWITCH]) with one constant per value. *)

Definition body_of (d : Decl) : list Decl :=
  match d with
  | Namespace _ body => body
  | Object _ _ _ => []
  end.

Definition members (n : string) (scope : list Decl) : list Decl :=
  match find (named n) scope with
  | Some d => body_of d
  | None => []
  end.

Definition object_of (d : Decl) : list (string * AkUniqueID) :=
  match d with
  | Object _ n lit => [ (n, to_AkUniqueID lit) ]
  | Namespace _ _ => []
  end.

(** The constants declared directly in a scope. *)
Definition objects (scope : list Decl) : list (string * AkUniqueID) :=
  flat_map object_of scope.

Definition category_members (tu : list Decl) (c : string) : list Decl :=
  members c (members "AK" tu).

Definition flat_names (tu : list Decl) (c : string) : list string :=
  map fst (objects (category_members tu c)).

(** The names of the values of each group of a nested category. *)
Definition group_value_names (tu : list Decl) (c inner : string)
  : list (list string) :=
  map (fun g => map fst (objects (members inner (body_of g))))
      (category_members tu c).

Inductive Category : Type :=
| Event
| State_Group
| State_Value
| Switch_Group
| Switch_Value
| Bank
| Bus
| Audio_Device.

Record Entry : Type := mkEntry
  { category : Category;
    name : string;
    id : AkUniqueID }.

Definition flat_entries (c : Category) (scope : list Decl) : list Entry :=
  map (fun o => mkEntry c (fst o) (snd o)) (objects scope).

Definition is_GROUP (o : string * AkUniqueID) : bool :=
  String.eqb (fst o) "GROUP".

(** A group contributes the entry of the group itself, named by the group's
    namespace and identified by its [GROUP] constant, then one entry per
    value. *)
Definition group_entries (cg cv : Category) (inner : string) (g : Decl)
  : list Entry :=
  match g with
  | Namespace gname gbody =>
      map (fun o => mkEntry cg gname (snd o)) (filter is_GROUP (objects gbody))
      ++ flat_entries cv (members inner gbody)
  | Object _ _ _ => []
  end.

Definition entries_of (tu : list Decl) : list Entry :=
  flat_entries Event (category_members tu "EVENTS")
  ++ flat_map (group_entries State_Group State_Value "STATE")
       (category_members tu "STATES")
  ++ flat_map (group_entries Switch_Group Switch_Value "SWITCH")
       (category_members tu "SWITCHES")
  ++ flat_entries Bank (category_members tu "BANKS")
  ++ flat_entries Bus (category_members tu "BUSSES")
  ++ flat_entries Audio_Device (category_members tu "AUDIO_DEVICES").

Definition entries : list Entry := entries_of Wwise_IDs_h.

(** ** The shape of the table *)

Inductive constant : Decl -> Prop :=
| constant_intro (n : string) (lit : Z) : constant (static_const n lit).

(** A group namespace: the [GROUP] constant, then the inner namespace with one
    constant per value. *)
Inductive group (inner : string) : Decl -> Prop :=
| group_intro (g : string) (gid : Z) (values : list Decl) :
    Forall constant values ->
    group inner (Namespace g [ static_const "GROUP" gid; Namespace inner values ]).

(** ** Decidable checks *)

Fixpoint distinctb {A : Type} (eqb : A -> A -> bool) (l : list A) : bool :=
  match l with
  | [] => true
  | x :: rest => negb (existsb (eqb x) rest) && distinctb eqb rest
  end.

(** No scope declares a name twice, at any depth. *)
Fixpoint well_scoped (d : Decl) : bool :=
  match d with
  | Object _ _ _ => true
  | Namespace _ body =>
      distinctb String.eqb (map decl_name body) && forallb well_scoped body
  end.

Definition scope_ok (scope : list Decl) : bool :=
  distinctb String.eqb (map decl_name scope) && forallb well_scoped scope.

(** Every object of the declaration is [const]-qualified. *)
Fixpoint const_only (d : Decl) : bool :=
  match d with
  | Object cv_const _ _ => true
  | Object cv_none _ _ => false
  | Namespace _ body => forallb const_only body
  end.

(** No initialiser is truncated by the conversion to [AkUniqueID]. *)
Fixpoint initialisers_fit (d : Decl) : bool :=
  match d with
  | Object _ _ lit => Z.eqb (to_AkUniqueID lit) lit
  | Namespace _ body => forallb initialisers_fit body
  end.

(** ** Accesses to the table

    What consuming code can write against a declared name: read it, or try to
    assign to it.  An assignment is well-formed only when the name resolves to
    an object that is not [const]; the translation unit is threaded through so
    that an effect, if there were one, would show. *)

Inductive Access : Type :=
| Read (q : QualifiedName)
| Write (q : QualifiedName) (v : Z).

Inductive Outcome : Type :=
| Value (v : AkUniqueID)
| Stored
| Rejected.

Fixpoint replace_named (n : string) (d' : Decl) (scope : list Decl)
  : list Decl :=
  match scope with
  | [] => []
  | d :: rest =>
      if named n d then d' :: rest else d :: replace_named n d' rest
  end.

Fixpoint assign (scope : list Decl) (q : QualifiedName) (v : Z) {struct q}
  : option (list Decl) :=
  match q with
  | [] => None
  | n :: rest =>
      match find (named n) scope with
      | None => None
      | Some (Object cv_const _ _) => None
      | Some (Object cv_none _ _) =>
          match rest with
          | [] => Some (replace_named n (Object cv_none n v) scope)
          | _ :: _ => None
          end
      | Some (Namespace _ body) =>
          match assign body rest v with
          | Some body' => Some (replace_named n (Namespace n body') scope)
          | None => None
          end
      end
  end.

Definition exec (a : Access) (tu : list Decl) : Outcome * list Decl :=
  match a with
  | Read q =>
      (match lookup tu q with Some v => Value v | None => Rejected end, tu)
  | Write q v =>
      match assign tu q v with
      | Some tu' => (Stored, tu')
      | None => (Rejected, tu)
      end
  end.

Fixpoint run (ops : list Access) (tu : list Decl)
  : list Outcome * list Decl :=
  match ops with
  | [] => ([], tu)
  | a :: rest =>
      let (o, tu') := exec a tu in
      let (os, tu'') := run rest tu' in
      (o :: os, tu'')
  end.

(** ** A hash of names

    The header does not declare how identifiers are derived.  The function
    below is the 32-bit FNV-1 hash of the lower-cased name, the hash the
    authoring tool publishes for its identifiers; it is used only as a
    candidate for the function from names to identifiers. *)

Definition FNV_offset_basis : Z := 2166136261.

Definition FNV_prime : Z := 16777619.

Definition to_lower (c : ascii) : ascii :=
  let n := N_of_ascii c in
  if ((65 <=? n) && (n <=? 90))%N then ascii_of_N (n + 32) else c.

Fixpoint fnv1 (h : Z) (s : string) : Z :=
  match s with
  | EmptyString => h
  | String c rest =>
      fnv1 (Z.lxor ((h * FNV_prime) mod 2 ^ 32)
                   (Z.of_N (N_of_ascii (to_lower c)))) rest
  end.

Definition name_hash (s : string) : AkUniqueID :=
  fnv1 FNV_offset_basis s.

(** The function from names to identifiers read off a list of entries: the
    identifier of the first entry with that name. *)
Definition id_of_name (es : list Entry) (s : string) : AkUniqueID :=
  match find (fun e => String.eqb (name e) s) es with
  | Some e => id e
  | None => 0
  end.

(** Equality of qualified names, component by component. *)
Fixpoint qname_eqb (a b : QualifiedName) : bool :=
  match a, b with
  | [], [] => true
  | x :: a', y :: b' => String.eqb x y && qname_eqb a' b'
  | _, _ => false
  end.

(** The range of a 32-bit unsigned value. *)
Definition in_range (s : QualifiedName * AkUniqueID) : Prop :=
  0 <= snd s <= 2 ^ 32 - 1.

(** ** The file as the preprocessor reads it

    The declarations of the header stand between [#ifndef __WWISE_IDS_H__],
    [#define __WWISE_IDS_H__] and [#endif], after the inclusion of
    [<AK/SoundEngine/Common/AkTypes.h>]. *)

Inductive Directive : Type :=
| Ifndef (macro : string) (body : list Directive)
| Define (macro : string)
| Include (file : string)
| Emit (d : Decl).

Definition __WWISE_IDS_H__ : string := "__WWISE_IDS_H__".

Definition AkTypes_h : string := "AK/SoundEngine/Common/AkTypes.h".

Definition Wwise_IDs_file : list Directive :=
  [ Ifndef __WWISE_IDS_H__
      [ Define __WWISE_IDS_H__;
        Include AkTypes_h;
        Emit AK ] ].

(** The state of preprocessing a translation unit: the macros defined so far
    and the declarations emitted so far. *)
Record PPState : Type := mkPP
  { macros : list string;
    emitted : list Decl }.

Definition defined (m : string) (st : PPState) : bool :=
  existsb (String.eqb m) (macros st).

(** [inc] is the effect of the files the repository does not contain. *)
Fixpoint directive (inc : string -> PPState -> PPState) (d : Directive)
  (st : PPState) : PPState :=
  match d with
  | Ifndef m body =>
      if defined m st then st
      else fold_left (fun st' d' => directive inc d' st') body st
  | Define m => mkPP (m :: macros st) (emitted st)
  | Include f => inc f st
  | Emit decl => mkPP (macros st) (emitted st ++ [ decl ])
  end.

Definition preprocess (inc : string -> PPState -> PPState)
  (file : list Directive) (st : PPState) : PPState :=
  fold_left (fun st' d' => directive inc d' st') file st.

(** ** Names as written *)

Fixpoint names_of (d : Decl) : list string :=
  match d with
  | Object _ n _ => [ n ]
  | Namespace n body => n :: flat_map names_of body
  end.

Fixpoint literals (d : Decl) : list Z :=
  match d with
  | Object _ _ lit => [ lit ]
  | Namespace _ body => flat_map literals body
  end.

Definition is_upper (c : ascii) : bool :=
  let n := N_of_ascii c in ((65 <=? n) && (n <=? 90))%N.

Definition is_digit (c : ascii) : bool :=
  let n := N_of_ascii c in ((48 <=? n) && (n <=? 57))%N.

Definition identifier_char (c : ascii) : bool :=
  is_upper c || is_digit c || (N_of_ascii c =? 95)%N.

(** A non-empty word of upper-case letters, digits and underscores that
    starts with a letter. *)
Definition upper_identifier (s : string) : bool :=
  match s with
  | EmptyString => false
  | String c rest => is_upper c && forallb identifier_char (list_ascii_of_string rest)
  end.

Fixpoint lower (s : string) : string :=
  match s with
  | EmptyString => EmptyString
  | String c rest => String (to_lower c) (lower rest)
  end.

(** The order of the lower-cased spellings. *)
Definition name_before (a b : string) : Prop :=
  String.compare (lower a) (lower b) = Lt.

Fixpoint increasing (l : list string) : bool :=
  match l with
  | a :: (b :: _) as rest => String.ltb (lower a) (lower b) && increasing rest
  | _ => true
  end.

(** ** Threads reading the table

    A thread is the sequence of accesses it has still to make.  A schedule
    names, step after step, the thread that makes its next access; accesses
    are atomic and all go to the one translation unit.  What each thread
    obtains is recorded with the thread's index. *)

Record World : Type := mkWorld
  { pending : list (list Access);
    table : list Decl;
    observed : list (nat * Access * Outcome) }.

Definition initial (programs : list (list Access)) : World :=
  mkWorld programs Wwise_IDs_h [].

Fixpoint set_nth {A : Type} (i : nat) (x : A) (l : list A) : list A :=
  match l, i with
  | [], _ => []
  | _ :: rest, O => x :: rest
  | y :: rest, S j => y :: set_nth j x rest
  end.

(** Thread [i] makes its next access; [None] when it has none left. *)
Definition fire (i : nat) (w : World) : option World :=
  match nth_error (pending w) i with
  | Some (a :: rest) =>
      Some (mkWorld (set_nth i rest (pending w))
                    (snd (exec a (table w)))
                    (observed w ++ [ (i, a, fst (exec a (table w))) ])%list)
  | _ => None
  end.

Fixpoint interleave (schedule : list nat) (w : World) : option World :=
  match schedule with
  | [] => Some w
  | i :: later =>
      match fire i w with
      | Some w' => interleave later w'
      | None => None
      end
  end.

(** Two threads that read the same event, one of them a bank as well. *)
Definition two_readers : list (list Access) :=
  [ [ Read [ "AK"; "EVENTS"; "PLAY_MUSIC" ]; Read [ "AK"; "BANKS"; "INIT" ] ];
    [ Read [ "AK"; "EVENTS"; "PLAY_MUSIC" ] ] ].

(** An observation agrees with the header when its outcome is the one the
    access has on the header alone. *)
Definition agrees (x : nat * Access * Outcome) : Prop :=
  snd x = fst (exec (snd (fst x)) Wwise_IDs_h).

(** * Properties *)

(** ** Distinctness by computation *)

Section Distinct.

Variable A : Type.
Variable eqb : A -> A -> bool.
Hypothesis eqb_refl : forall x, eqb x x = true.

Lemma existsb_eqb_false (x : A) (l : list A) :
  existsb (eqb x) l = false -> ~ In x l.
Proof.
  induction l as [|y l IH]; simpl; intros Hex Hin.
  - exact Hin.
  - apply orb_false_iff in Hex. destruct Hex as [Hy Hl].
    destruct Hin as [<-|Hin].
    + rewrite eqb_refl in Hy. discriminate Hy.
    + exact (IH Hl Hin).
Qed.

Lemma distinctb_NoDup (l : list A) :
  distinctb eqb l = true -> NoDup l.
Proof.
  induction l as [|x l IH]; simpl; intros H.
  - constructor.
  - apply andb_true_iff in H. destruct H as [Hx Hl].
    constructor.
    + apply existsb_eqb_false. now apply negb_true_iff.
    + exact (IH Hl).
Qed.

End Distinct.

Lemma distinct_strings (l : list string) :
  distinctb String.eqb l = true -> NoDup l.
Proof. apply distinctb_NoDup, String.eqb_refl. Qed.

Lemma distinct_ids (l : list AkUniqueID) :
  distinctb Z.eqb l = true -> NoDup l.
Proof. apply distinctb_NoDup, Z.eqb_refl. Qed.

(** ** Qualified lookup against the declared constants *)

Lemma named_decl_name (n : string) (d : Decl) :
  named n d = true <-> decl_name d = n.
Proof. unfold named. apply String.eqb_eq. Qed.

Lemma find_named_first (scope : list Decl) (d : Decl) :
  distinctb String.eqb (map decl_name scope) = true ->
  In d scope ->
  find (named (decl_name d)) scope = Some d.
Proof.
  induction scope as [|d0 scope IH]; simpl; intros Hd Hin.
  - contradiction.
  - apply andb_true_iff in Hd. destruct Hd as [Hfresh Hrest].
    destruct Hin as [->|Hin].
    + unfold named at 1. now rewrite String.eqb_refl.
    + destruct (named (decl_name d) d0) eqn:Hn.
      * exfalso. apply named_decl_name in Hn.
        apply negb_true_iff in Hfresh.
        apply (existsb_eqb_false _ String.eqb String.eqb_refl) in Hfresh.
        apply Hfresh. rewrite Hn. now apply in_map.
      * now apply IH.
Qed.

Lemma declared_inv (d : Decl) (q : QualifiedName) (v : AkUniqueID) :
  In (q, v) (declared d) ->
  exists rest, q = decl_name d :: rest /\
    match d with
    | Object _ _ lit => rest = [] /\ v = to_AkUniqueID lit
    | Namespace _ body => In (rest, v) (declared_in body)
    end.
Proof.
  destruct d as [cv n lit|n body]; simpl.
  - intros [H|[]]. inversion H; subst. now exists [].
  - intros H. apply in_map_iff in H. destruct H as [[rest w] [Heq Hin]].
    unfold qualify in Heq. simpl in Heq. inversion Heq; subst.
    now exists rest.
Qed.

Lemma well_scoped_body (scope : list Decl) (n : string) (body : list Decl) :
  scope_ok scope = true -> In (Namespace n body) scope -> scope_ok body = true.
Proof.
  unfold scope_ok. intros H Hin.
  apply andb_true_iff in H. destruct H as [_ Hall].
  rewrite forallb_forall in Hall. exact (Hall _ Hin).
Qed.

(** A successful lookup returns a declared constant, whatever the scope. *)
Lemma lookup_sound (q : QualifiedName) :
  forall scope v, lookup scope q = Some v -> In (q, v) (declared_in scope).
Proof.
  induction q as [|n rest IH]; simpl; intros scope v H.
  - discriminate H.
  - destruct (find (named n) scope) as [d|] eqn:Hfind; [|discriminate H].
    apply find_some in Hfind. destruct Hfind as [Hin Hn].
    apply named_decl_name in Hn.
    unfold declared_in. apply in_flat_map. exists d. split; [exact Hin|].
    destruct d as [cv m lit|m body]; simpl in Hn; subst m.
    + destruct rest; [|discriminate H]. inversion H; subst. now left.
    + simpl. apply in_map_iff. exists (rest, v). split; [reflexivity|].
      now apply IH.
Qed.

(** In a scope that declares no name twice, every declared constant is found
    under its qualified name. *)
Lemma lookup_complete (q : QualifiedName) :
  forall scope v,
    scope_ok scope = true ->
    In (q, v) (declared_in scope) -> lookup scope q = Some v.
Proof.
  induction q as [|n rest IH]; intros scope v Hok H;
    unfold declared_in in H; apply in_flat_map in H;
    destruct H as [d [Hin Hd]]; apply declared_inv in Hd;
    destruct Hd as [rest' [Hq Hd]].
  - discriminate Hq.
  - inversion Hq; subst n rest'. simpl.
    assert (Hdist : distinctb String.eqb (map decl_name scope) = true).
    { unfold scope_ok in Hok. now apply andb_true_iff in Hok. }
    rewrite (find_named_first scope d Hdist Hin).
    destruct d as [cv m lit|m body].
    + destruct Hd as [-> ->]. reflexivity.
    + apply IH; [|exact Hd]. exact (well_scoped_body scope m body Hok Hin).
Qed.

(** X5. In any translation unit where no scope declares a name twice, a
    qualified name resolves to a value exactly when a constant is declared
    under that name with that value. *)
Lemma lookup_declared (scope : list Decl) (q : QualifiedName) (v : AkUniqueID) :
  scope_ok scope = true ->
  (lookup scope q = Some v <-> In (q, v) (declared_in scope)).
Proof.
  intros Hok. split; [apply lookup_sound | now apply lookup_complete].
Qed.

Lemma Wwise_IDs_h_scope_ok : scope_ok Wwise_IDs_h = true.
Proof. reflexivity. Qed.

(** ** Induction on declarations *)

Section DeclInduction.

Variable P : Decl -> Prop.
Hypothesis P_Object : forall cv n lit, P (Object cv n lit).
Hypothesis P_Namespace : forall n body, Forall P body -> P (Namespace n body).

Lemma Decl_induction : forall d, P d.
Proof.
  fix IH 1. intros [cv n lit|n body].
  - apply P_Object.
  - apply P_Namespace.
    induction body as [|d body IHbody]; constructor.
    + apply IH.
    + exact IHbody.
Qed.

End DeclInduction.

Lemma to_AkUniqueID_range (lit : Z) : 0 <= to_AkUniqueID lit <= 2 ^ 32 - 1.
Proof.
  unfold to_AkUniqueID, AkUniqueID_modulus, AkUniqueID_width.
  assert (H : 0 <= lit mod 2 ^ 32 < 2 ^ 32) by (apply Z.mod_pos_bound; lia).
  lia.
Qed.

Lemma declared_range (d : Decl) : Forall in_range (declared d).
Proof.
  induction d as [cv n lit|n body IH] using Decl_induction; simpl.
  - constructor; [|constructor]. apply to_AkUniqueID_range.
  - apply Forall_map. apply Forall_flat_map.
    apply Forall_impl with (2 := IH).
    intros d Hd. apply Forall_impl with (2 := Hd).
    intros [q v] Hv. exact Hv.
Qed.

Lemma declared_in_range (scope : list Decl) : Forall in_range (declared_in scope).
Proof.
  unfold declared_in. apply Forall_flat_map.
  apply Forall_forall. intros d _. apply declared_range.
Qed.

Lemma qname_eqb_refl (q : QualifiedName) : qname_eqb q q = true.
Proof.
  induction q as [|n q IH]; simpl; [reflexivity|].
  now rewrite String.eqb_refl.
Qed.

(** ** The views cover the header *)

Lemma entries_cover_declared : map id entries = all_ids.
Proof. reflexivity. Qed.

Lemma flat_categories :
  flat_names Wwise_IDs_h "EVENTS" =
    [ "PAUSE_DOORKNOCK"; "PLAY_CALIBRATION"; "PLAY_DOOR_OPEN"; "PLAY_DOORKNOCK";
      "PLAY_E_FOOTSTEPS_WETDIRT"; "PLAY_ENEMY_DETECT"; "PLAY_ENEMY_ENTRY";
      "PLAY_ENEMYBREATH"; "PLAY_LEVER"; "PLAY_MUSIC"; "PLAY_OUTRO";
      "PLAY_P_FOOTSTEPS" ] /\
  flat_names Wwise_IDs_h "BANKS" = [ "INIT"; "MAIN" ] /\
  flat_names Wwise_IDs_h "BUSSES" = [ "MASTER_AUDIO_BUS" ] /\
  flat_names Wwise_IDs_h "AUDIO_DEVICES" = [ "NO_OUTPUT"; "SYSTEM" ].
Proof. repeat split. Qed.

Lemma grouped_categories :
  group_value_names Wwise_IDs_h "STATES" "STATE" =
    [ [ "EXCITE"; "MODERATE"; "NONE"; "RELAX" ] ] /\
  group_value_names Wwise_IDs_h "SWITCHES" "SWITCH" = [ [ "DIRT"; "WOOD" ] ].
Proof. split; reflexivity. Qed.

(** ** Names within a category *)

(** C2. In each category (the events, the values of each state group, the
    values of each switch group, the banks, the busses, the audio devices) the
    names of the entries are pairwise distinct. *)
Theorem names_unique_within_category :
  NoDup (flat_names Wwise_IDs_h "EVENTS") /\
  Forall (@NoDup string) (group_value_names Wwise_IDs_h "STATES" "STATE") /\
  Forall (@NoDup string) (group_value_names Wwise_IDs_h "SWITCHES" "SWITCH") /\
  NoDup (flat_names Wwise_IDs_h "BANKS") /\
  NoDup (flat_names Wwise_IDs_h "BUSSES") /\
  NoDup (flat_names Wwise_IDs_h "AUDIO_DEVICES").
Proof.
  repeat split;
    repeat (apply Forall_cons || apply Forall_nil);
    apply distinct_strings; reflexivity.
Qed.

(** ** Shape *)

(** C3. Namespace [AK] holds exactly the six categories [EVENTS], [STATES],
    [SWITCHES], [BANKS], [BUSSES] and [AUDIO_DEVICES], in that order; [STATES]
    and [SWITCHES] hold groups, each made of a [GROUP] constant and one
    constant per value, and the other four hold constants only. *)
Theorem table_shape :
  exists events states switches banks busses devices,
    AK = Namespace "AK"
           [ Namespace "EVENTS" events;
             Namespace "STATES" states;
             Namespace "SWITCHES" switches;
             Namespace "BANKS" banks;
             Namespace "BUSSES" busses;
             Namespace "AUDIO_DEVICES" devices ] /\
    Forall constant events /\
    Forall (group "STATE") states /\
    Forall (group "SWITCH") switches /\
    Forall constant banks /\
    Forall constant busses /\
    Forall constant devices.
Proof.
  unfold AK, EVENTS, STATES, AFFECTED_STATES, SWITCHES, P_FOOTSTEP, BANKS,
    BUSSES, AUDIO_DEVICES.
  do 6 eexists. split; [reflexivity|].
  repeat split; repeat constructor.
Qed.

(** ** Values *)

(** C4. Every constant the header declares holds a value between [0] and
    [2 ^ 32 - 1]. *)
Theorem ids_are_uint32 (q : QualifiedName) (v : AkUniqueID) :
  In (q, v) (declared_in Wwise_IDs_h) -> 0 <= v <= 2 ^ 32 - 1.
Proof.
  intros H.
  exact (proj1 (Forall_forall _ _) (declared_in_range Wwise_IDs_h) (q, v) H).
Qed.

Lemma ids_are_uint32_witness :
  0 <= 2932040671 <= 2 ^ 32 - 1.
Proof.
  apply (ids_are_uint32 [ "AK"; "EVENTS"; "PLAY_MUSIC" ] 2932040671).
  vm_compute. tauto.
Defined.

(** The literals of the header are the values: none is reduced by the
    conversion to 32 bits. *)
Lemma literals_are_values : forallb initialisers_fit Wwise_IDs_h = true.
Proof. reflexivity. Qed.

(** C9, as stated: the header would declare 22 constants.  It declares 25. *)
Lemma not_22_constants :
  ~ (List.length all_ids = 22%nat /\ NoDup all_ids).
Proof. intros [H _]. vm_compute in H. discriminate H. Qed.

(** C9, amended. The header declares 25 constants (12 events, a state group
    and its 4 values, a switch group and its 2 values, 2 banks, 1 bus and
    2 audio devices), and their values are pairwise distinct across the whole
    table. *)
Theorem ids_globally_distinct :
  List.length all_ids = 25%nat /\ NoDup all_ids.
Proof.
  split; [reflexivity|]. apply distinct_ids. vm_compute. reflexivity.
Qed.

(** C10. No constant of the header holds [0]. *)
Theorem ids_nonzero (q : QualifiedName) (v : AkUniqueID) :
  In (q, v) (declared_in Wwise_IDs_h) -> v <> 0.
Proof.
  intros H.
  assert (Hall : forallb (fun s => negb (Z.eqb (snd s) 0))
                   (declared_in Wwise_IDs_h) = true) by (vm_compute; reflexivity).
  rewrite forallb_forall in Hall. specialize (Hall _ H). simpl in Hall.
  apply negb_true_iff in Hall. now apply Z.eqb_neq.
Qed.

Lemma ids_nonzero_witness : 1355168291 <> 0.
Proof.
  apply (ids_nonzero [ "AK"; "BANKS"; "INIT" ] 1355168291).
  vm_compute. tauto.
Defined.

(** ** Lookup *)

Lemma not_declared_by_computation (q : QualifiedName) :
  existsb (qname_eqb q) all_symbols = false -> ~ In q all_symbols.
Proof. apply existsb_eqb_false, qname_eqb_refl. Qed.

(** C5. Looking a qualified name up in the header returns the identifier of
    the constant declared under that name when there is one, and resolves to
    nothing otherwise.  [lookup] is a total function: the unresolved name is its
    only failure, raised when the reference is resolved, and a resolved
    reference is the value itself. *)
Theorem lookup_exactly_declared (q : QualifiedName) :
  (In q all_symbols ->
   exists v, lookup Wwise_IDs_h q = Some v /\ In (q, v) (declared_in Wwise_IDs_h)) /\
  (~ In q all_symbols -> lookup Wwise_IDs_h q = None).
Proof.
  split.
  - intros H. unfold all_symbols in H. apply in_map_iff in H.
    destruct H as [[q' v] [Hq Hin]]. simpl in Hq. subst q'.
    exists v. split; [|exact Hin].
    apply lookup_complete; [exact Wwise_IDs_h_scope_ok | exact Hin].
  - intros H. destruct (lookup Wwise_IDs_h q) as [v|] eqn:Hl; [|reflexivity].
    exfalso. apply H. apply lookup_sound in Hl.
    unfold all_symbols. apply in_map_iff. now exists (q, v).
Qed.

Lemma lookup_exactly_declared_witness :
  (exists v,
     lookup Wwise_IDs_h [ "AK"; "STATES"; "AFFECTED_STATES"; "STATE"; "NONE" ]
       = Some v /\
     In ([ "AK"; "STATES"; "AFFECTED_STATES"; "STATE"; "NONE" ], v)
        (declared_in Wwise_IDs_h)) /\
  lookup Wwise_IDs_h [ "AK"; "EVENTS"; "PLAY_INTRO" ] = None.
Proof.
  split.
  - apply (proj1 (lookup_exactly_declared
                    [ "AK"; "STATES"; "AFFECTED_STATES"; "STATE"; "NONE" ])).
    vm_compute. tauto.
  - apply (proj2 (lookup_exactly_declared [ "AK"; "EVENTS"; "PLAY_INTRO" ])).
    apply not_declared_by_computation. reflexivity.
Defined.

Example lookup_NONE :
  lookup Wwise_IDs_h [ "AK"; "STATES"; "AFFECTED_STATES"; "STATE"; "NONE" ]
  = Some 748895195.
Proof. reflexivity. Qed.

Example lookup_namespace_is_not_a_constant :
  lookup Wwise_IDs_h [ "AK"; "STATES"; "AFFECTED_STATES" ] = None.
Proof. reflexivity. Qed.

(** ** Identifiers as a function of names *)

Lemma id_of_name_first (es : list Entry) (e : Entry) :
  NoDup (map name es) -> In e es -> id_of_name es (name e) = id e.
Proof.
  unfold id_of_name.
  induction es as [|e0 es IH]; simpl; intros Hnd Hin.
  - contradiction.
  - inversion Hnd as [|x l Hfresh Hrest]; subst.
    destruct Hin as [->|Hin].
    + now rewrite String.eqb_refl.
    + destruct (String.eqb (name e0) (name e)) eqn:Heq.
      * exfalso. apply String.eqb_eq in Heq. apply Hfresh.
        rewrite Heq. now apply in_map.
      * now apply IH.
Qed.

Lemma entry_names_distinct : NoDup (map name entries).
Proof. apply distinct_strings. reflexivity. Qed.

(** C1. One function from names to identifiers gives the identifier of every
    entry of the table, so two entries with the same name have the same
    identifier.  A group is an entry named by its group namespace, its
    identifier being the group's [GROUP] constant. *)
Theorem id_determined_by_name :
  exists h : string -> AkUniqueID,
    (forall e, In e entries -> id e = h (name e)) /\
    (forall e1 e2,
        In e1 entries -> In e2 entries -> name e1 = name e2 -> id e1 = id e2).
Proof.
  exists (id_of_name entries).
  assert (Hh : forall e, In e entries -> id e = id_of_name entries (name e)).
  { intros e He. symmetry. apply id_of_name_first;
      [exact entry_names_distinct | exact He]. }
  split; [exact Hh|].
  intros e1 e2 H1 H2 Hn. rewrite (Hh e1 H1), (Hh e2 H2), Hn. reflexivity.
Qed.

Lemma id_determined_by_name_witness :
  exists h : string -> AkUniqueID,
    h "AFFECTED_STATES" = 2719039974 /\ h "MASTER_AUDIO_BUS" = 3803692087.
Proof.
  destruct id_determined_by_name as [h [Hh _]].
  exists h. split.
  - symmetry. apply (Hh (mkEntry State_Group "AFFECTED_STATES" 2719039974)).
    vm_compute. tauto.
  - symmetry. apply (Hh (mkEntry Bus "MASTER_AUDIO_BUS" 3803692087)).
    vm_compute. tauto.
Defined.

(** The function is a hash of the name in this sense: every identifier but
    the bus's is the FNV-1 hash of the lower-cased name of its entry, and the
    bus's is the hash of the same name written with spaces, the identifier of
    the header having underscores in their place. *)
Lemma ids_are_name_hashes :
  Forall (fun e => name e = "MASTER_AUDIO_BUS" \/ id e = name_hash (name e))
         entries.
Proof.
  apply Forall_forall. intros e He.
  assert (Hall : forallb
            (fun e => String.eqb (name e) "MASTER_AUDIO_BUS"
                      || Z.eqb (id e) (name_hash (name e))) entries = true)
    by (vm_compute; reflexivity).
  rewrite forallb_forall in Hall. specialize (Hall e He).
  apply orb_true_iff in Hall. destruct Hall as [H|H].
  - left. now apply String.eqb_eq.
  - right. now apply Z.eqb_eq.
Qed.

Lemma bus_id_is_hash_of_spaced_name :
  lookup Wwise_IDs_h [ "AK"; "BUSSES"; "MASTER_AUDIO_BUS" ]
    = Some (name_hash "Master Audio Bus") /\
  name_hash "MASTER_AUDIO_BUS" = 2392784291.
Proof. split; vm_compute; reflexivity. Qed.

(** The leaf [GROUP] is the same word in every group and holds a different
    value in each: what is hashed is the name of the group. *)
Lemma GROUP_holds_hash_of_group_name :
  lookup Wwise_IDs_h [ "AK"; "STATES"; "AFFECTED_STATES"; "GROUP" ]
    = Some (name_hash "AFFECTED_STATES") /\
  lookup Wwise_IDs_h [ "AK"; "SWITCHES"; "P_FOOTSTEP"; "GROUP" ]
    = Some (name_hash "P_FOOTSTEP") /\
  ~ In (name_hash "GROUP") all_ids.
Proof.
  repeat split; try (vm_compute; reflexivity).
  apply (existsb_eqb_false _ Z.eqb Z.eqb_refl). vm_compute. reflexivity.
Qed.

(** ** Accesses leave the table as it is *)

Lemma assign_const_only (q : QualifiedName) :
  forall scope v, forallb const_only scope = true -> assign scope q v = None.
Proof.
  induction q as [|n rest IH]; simpl; intros scope v Hc; [reflexivity|].
  destruct (find (named n) scope) as [d|] eqn:Hfind; [|reflexivity].
  apply find_some in Hfind. destruct Hfind as [Hin _].
  rewrite forallb_forall in Hc. specialize (Hc d Hin).
  destruct d as [[|] m lit|m body]; simpl in Hc.
  - reflexivity.
  - discriminate Hc.
  - now rewrite (IH body v Hc).
Qed.

Lemma exec_const_only (a : Access) (tu : list Decl) :
  forallb const_only tu = true -> snd (exec a tu) = tu.
Proof.
  intros Hc. destruct a as [q|q v]; simpl.
  - reflexivity.
  - now rewrite (assign_const_only q tu v Hc).
Qed.

Lemma run_const_only (ops : list Access) (tu : list Decl) :
  forallb const_only tu = true ->
  run ops tu = (map (fun a => fst (exec a tu)) ops, tu).
Proof.
  intros Hc. induction ops as [|a ops IH]; simpl; [reflexivity|].
  pose proof (exec_const_only a tu Hc) as Ha.
  destruct (exec a tu) as [o tu']. simpl in Ha. subst tu'.
  now rewrite IH.
Qed.

Lemma Wwise_IDs_h_const_only : forallb const_only Wwise_IDs_h = true.
Proof. reflexivity. Qed.

(** An object that is not [const] can be assigned: the frame property below
    rests on the qualifier the header gives to each of its declarations. *)
Example write_to_mutable_object :
  exec (Write [ "N"; "X" ] 7) [ Namespace "N" [ Object cv_none "X" 1 ] ]
  = (Stored, [ Namespace "N" [ Object cv_none "X" 7 ] ]).
Proof. reflexivity. Qed.

(** C6. Reading a constant returns the translation unit it was read from;
    no access to the header, a read or an attempted assignment, changes it,
    an assignment to any of its names being rejected; and after any sequence
    of accesses the entries are the entries of the header, names and
    identifiers included. *)
Theorem reading_has_no_effect :
  (forall tu q, snd (exec (Read q) tu) = tu) /\
  (forall a, snd (exec a Wwise_IDs_h) = Wwise_IDs_h) /\
  (forall q v, exec (Write q v) Wwise_IDs_h = (Rejected, Wwise_IDs_h)) /\
  (forall ops,
      snd (run ops Wwise_IDs_h) = Wwise_IDs_h /\
      entries_of (snd (run ops Wwise_IDs_h)) = entries).
Proof.
  split; [reflexivity|].
  split; [intros a; apply exec_const_only, Wwise_IDs_h_const_only|].
  split.
  - intros q v. unfold exec.
    now rewrite (assign_const_only q Wwise_IDs_h v Wwise_IDs_h_const_only).
  - intros ops. rewrite (run_const_only ops _ Wwise_IDs_h_const_only).
    split; reflexivity.
Qed.

(** In any sequence of accesses, each one has the outcome it has on the
    header alone: a read of a name returns the same identifier wherever it
    stands in the sequence. *)
Lemma outcomes_independent_of_order (ops : list Access) :
  fst (run ops Wwise_IDs_h) = map (fun a => fst (exec a Wwise_IDs_h)) ops.
Proof. now rewrite (run_const_only ops _ Wwise_IDs_h_const_only). Qed.

(** * Further properties of the header *)

(** ** The include guard *)

Section DirectiveInduction.

Variable P : Directive -> Prop.
Hypothesis P_Ifndef : forall m body, Forall P body -> P (Ifndef m body).
Hypothesis P_Define : forall m, P (Define m).
Hypothesis P_Include : forall f, P (Include f).
Hypothesis P_Emit : forall d, P (Emit d).

Lemma Directive_induction : forall d, P d.
Proof.
  fix IH 1. intros [m body|m|f|d].
  - apply P_Ifndef.
    induction body as [|x body IHbody]; constructor.
    + apply IH.
    + exact IHbody.
  - apply P_Define.
  - apply P_Include.
  - apply P_Emit.
Qed.

End DirectiveInduction.

Section IncludeGuard.

Variable inc : string -> PPState -> PPState.

(** No included file undefines the guard. *)
Hypothesis inc_keeps_guard :
  forall f st,
    defined __WWISE_IDS_H__ st = true ->
    defined __WWISE_IDS_H__ (inc f st) = true.

Lemma fold_keeps_guard (body : list Directive) :
  Forall (fun d => forall st,
            defined __WWISE_IDS_H__ st = true ->
            defined __WWISE_IDS_H__ (directive inc d st) = true) body ->
  forall st,
    defined __WWISE_IDS_H__ st = true ->
    defined __WWISE_IDS_H__
      (fold_left (fun st' d' => directive inc d' st') body st) = true.
Proof.
  induction 1 as [|d body Hd Hbody IH]; simpl; intros st Hst.
  - exact Hst.
  - apply IH. now apply Hd.
Qed.

Lemma directive_keeps_guard (d : Directive) :
  forall st,
    defined __WWISE_IDS_H__ st = true ->
    defined __WWISE_IDS_H__ (directive inc d st) = true.
Proof.
  induction d as [m body IH|m|f|decl] using Directive_induction;
    intros st Hst; simpl.
  - destruct (defined m st); [exact Hst|]. now apply fold_keeps_guard.
  - unfold defined in *. cbn [macros existsb]. rewrite Hst. apply orb_true_r.
  - now apply inc_keeps_guard.
  - exact Hst.
Qed.

Lemma preprocess_keeps_guard (file : list Directive) (st : PPState) :
  defined __WWISE_IDS_H__ st = true ->
  defined __WWISE_IDS_H__ (preprocess inc file st) = true.
Proof.
  unfold preprocess. apply fold_keeps_guard.
  apply Forall_forall. intros d _. apply directive_keeps_guard.
Qed.

Lemma first_inclusion (st : PPState) :
  defined __WWISE_IDS_H__ st = false ->
  preprocess inc Wwise_IDs_file st =
    mkPP (macros (inc AkTypes_h (mkPP (__WWISE_IDS_H__ :: macros st) (emitted st))))
         (emitted (inc AkTypes_h (mkPP (__WWISE_IDS_H__ :: macros st) (emitted st)))
          ++ [ AK ]).
Proof.
  intros Hundef. unfold preprocess, Wwise_IDs_file. simpl.
  rewrite Hundef. reflexivity.
Qed.

Lemma later_inclusion (st : PPState) :
  defined __WWISE_IDS_H__ st = true ->
  preprocess inc Wwise_IDs_file st = st.
Proof.
  intros Hdef. unfold preprocess, Wwise_IDs_file. simpl.
  rewrite Hdef. reflexivity.
Qed.

Lemma guard_defined_after (st : PPState) :
  defined __WWISE_IDS_H__ (preprocess inc Wwise_IDs_file st) = true.
Proof.
  destruct (defined __WWISE_IDS_H__ st) eqn:Hdef.
  - now rewrite (later_inclusion st Hdef).
  - rewrite (first_inclusion st Hdef).
    assert (H : defined __WWISE_IDS_H__
                  (mkPP (__WWISE_IDS_H__ :: macros st) (emitted st)) = true).
    { unfold defined. cbn [macros existsb]. now rewrite String.eqb_refl. }
    apply (inc_keeps_guard AkTypes_h) in H. exact H.
Qed.


End IncludeGuard.


(** Without the guard a second inclusion would declare every constant again. *)
Example unguarded_double_inclusion :
  preprocess (fun _ st => st) [ Emit AK; Emit AK ] (mkPP [] [])
    = mkPP [] (Wwise_IDs_h ++ Wwise_IDs_h) /\
  List.length (declared_in (Wwise_IDs_h ++ Wwise_IDs_h)) = 50%nat.
Proof. split; reflexivity. Qed.

(** ** Qualified names *)

Lemma declared_head (d : Decl) (q : QualifiedName) :
  In q (map fst (declared d)) -> exists rest, q = decl_name d :: rest.
Proof.
  intros H. apply in_map_iff in H. destruct H as [[q' v] [Hq Hin]].
  simpl in Hq. subst q'. apply declared_inv in Hin.
  destruct Hin as [rest [Hq _]]. now exists rest.
Qed.

Lemma NoDup_map_cons (n : string) (l : list QualifiedName) :
  NoDup l -> NoDup (map (cons n) l).
Proof.
  induction 1 as [|q l Hfresh Hnd IH]; simpl; constructor.
  - intros Hin. apply in_map_iff in Hin. destruct Hin as [q' [Heq Hin]].
    inversion Heq; subst q'. exact (Hfresh Hin).
  - exact IH.
Qed.

Lemma fst_qualify (n : string) (l : list (QualifiedName * AkUniqueID)) :
  map fst (map (qualify n) l) = map (cons n) (map fst l).
Proof. rewrite !map_map. reflexivity. Qed.

Lemma scope_names_NoDup (scope : list Decl) :
  Forall (fun d => well_scoped d = true -> NoDup (map fst (declared d))) scope ->
  distinctb String.eqb (map decl_name scope) = true ->
  forallb well_scoped scope = true ->
  NoDup (map fst (flat_map declared scope)).
Proof.
  induction 1 as [|d scope Hd Hrest IH]; simpl; intros Hdist Hws.
  - constructor.
  - apply andb_true_iff in Hdist. destruct Hdist as [Hfresh Hdist].
    apply andb_true_iff in Hws. destruct Hws as [Hwd Hws].
    rewrite map_app. apply NoDup_app.
    + exact (Hd Hwd).
    + exact (IH Hdist Hws).
    + intros q Hq1 Hq2.
      apply declared_head in Hq1. destruct Hq1 as [r1 Hq1].
      apply in_map_iff in Hq2. destruct Hq2 as [[q' v] [Hq' Hin]].
      simpl in Hq'. subst q'. apply in_flat_map in Hin.
      destruct Hin as [d' [Hd' Hin]].
      apply declared_inv in Hin. destruct Hin as [r2 [Hq2 _]].
      rewrite Hq1 in Hq2. inversion Hq2 as [[Hname Hr]].
      apply negb_true_iff in Hfresh.
      apply (existsb_eqb_false _ String.eqb String.eqb_refl) in Hfresh.
      apply Hfresh. rewrite Hname. now apply in_map.
Qed.

Lemma well_scoped_NoDup (d : Decl) :
  well_scoped d = true -> NoDup (map fst (declared d)).
Proof.
  induction d as [cv n lit|n body IH] using Decl_induction; simpl; intros Hws.
  - constructor; [intros []|constructor].
  - apply andb_true_iff in Hws. destruct Hws as [Hdist Hall].
    rewrite fst_qualify. apply NoDup_map_cons.
    now apply scope_names_NoDup.
Qed.

(** X2. In a translation unit where no scope declares a name twice, no
    qualified name is declared twice: each names one constant. *)
Theorem qualified_names_distinct (tu : list Decl) :
  scope_ok tu = true -> NoDup (map fst (declared_in tu)).
Proof.
  unfold scope_ok, declared_in. intros H.
  apply andb_true_iff in H. destruct H as [Hdist Hws].
  apply scope_names_NoDup; [|exact Hdist|exact Hws].
  apply Forall_forall. intros d _. apply well_scoped_NoDup.
Qed.

Lemma qualified_names_distinct_witness : NoDup all_symbols.
Proof.
  apply (qualified_names_distinct Wwise_IDs_h). reflexivity.
Defined.

Lemma NoDup_snd_injective (A B : Type) (l : list (A * B)) (a1 a2 : A) (b : B) :
  NoDup (map snd l) -> In (a1, b) l -> In (a2, b) l -> a1 = a2.
Proof.
  induction l as [|[a0 b0] l IH]; simpl; intros Hnd H1 H2.
  - contradiction.
  - inversion Hnd as [|x xs Hfresh Hrest]; subst.
    destruct H1 as [H1|H1], H2 as [H2|H2].
    + congruence.
    + inversion H1; subst. exfalso. apply Hfresh.
      change b with (snd (a2, b)). now apply in_map.
    + inversion H2; subst. exfalso. apply Hfresh.
      change b with (snd (a1, b)). now apply in_map.
    + exact (IH Hrest H1 H2).
Qed.

(** X4. An identifier of the header belongs to one constant: two qualified
    names that resolve to the same value are the same name. *)
Theorem lookup_injective (q1 q2 : QualifiedName) (v : AkUniqueID) :
  lookup Wwise_IDs_h q1 = Some v ->
  lookup Wwise_IDs_h q2 = Some v ->
  q1 = q2.
Proof.
  intros H1 H2. apply lookup_sound in H1. apply lookup_sound in H2.
  apply (NoDup_snd_injective _ _ (declared_in Wwise_IDs_h) q1 q2 v);
    [|exact H1|exact H2].
  apply distinct_ids. vm_compute. reflexivity.
Qed.

Lemma lookup_injective_witness :
  [ "AK"; "BANKS"; "MAIN" ] = [ "AK"; "BANKS"; "MAIN" ].
Proof.
  apply (lookup_injective [ "AK"; "BANKS"; "MAIN" ] [ "AK"; "BANKS"; "MAIN" ]
           3161908922); reflexivity.
Defined.

Lemma lookup_declared_witness :
  lookup Wwise_IDs_h [ "AK"; "SWITCHES"; "P_FOOTSTEP"; "SWITCH"; "WOOD" ]
    = Some 2058049674
  <-> In ([ "AK"; "SWITCHES"; "P_FOOTSTEP"; "SWITCH"; "WOOD" ], 2058049674)
         (declared_in Wwise_IDs_h).
Proof.
  apply (lookup_declared Wwise_IDs_h). reflexivity.
Defined.

(** ** Names and literals as written *)

(** X6. Every name of the header, of a namespace or of a constant, is a
    non-empty word of upper-case letters, digits and underscores that starts
    with a letter. *)
Theorem names_are_upper_identifiers :
  Forall (fun n => upper_identifier n = true) (flat_map names_of Wwise_IDs_h).
Proof.
  apply Forall_forall. apply forallb_forall. vm_compute. reflexivity.
Qed.

(** X7. The values the constants hold are the literals as the header writes
    them, in order: every literal lies between [0] and [2 ^ 32 - 1] and none
    is changed by the conversion to [AkUniqueID]. *)
Theorem ids_are_literals :
  all_ids = flat_map literals Wwise_IDs_h /\
  Forall (fun lit => 0 <= lit <= 2 ^ 32 - 1) (flat_map literals Wwise_IDs_h).
Proof.
  split; [reflexivity|].
  apply Forall_forall. intros lit Hin.
  assert (Hall : forallb (fun z => (0 <=? z) && (z <=? 2 ^ 32 - 1))
                   (flat_map literals Wwise_IDs_h) = true)
    by (vm_compute; reflexivity).
  rewrite forallb_forall in Hall. specialize (Hall lit Hin).
  apply andb_true_iff in Hall. destruct Hall as [H0 H1].
  apply Z.leb_le in H0. apply Z.leb_le in H1. split; assumption.
Qed.

(** ** Order of the names *)

Lemma ltb_name_before (a b : string) :
  String.ltb (lower a) (lower b) = true -> name_before a b.
Proof.
  unfold String.ltb, name_before.
  destruct (String.compare (lower a) (lower b)); [discriminate|reflexivity|discriminate].
Qed.

Lemma increasing_Sorted (l : list string) :
  increasing l = true -> Sorted name_before l.
Proof.
  induction l as [|a l IH]; intros H.
  - constructor.
  - destruct l as [|b l].
    + repeat constructor.
    + simpl in H. apply andb_true_iff in H. destruct H as [Hab Hrest].
      constructor; [exact (IH Hrest)|].
      constructor. now apply ltb_name_before.
Qed.

(** X8. In every category the constants stand in strictly increasing order
    of their lower-cased names (an underscore before any letter). *)
Theorem names_in_order :
  Sorted name_before (flat_names Wwise_IDs_h "EVENTS") /\
  Forall (Sorted name_before) (group_value_names Wwise_IDs_h "STATES" "STATE") /\
  Forall (Sorted name_before) (group_value_names Wwise_IDs_h "SWITCHES" "SWITCH") /\
  Sorted name_before (flat_names Wwise_IDs_h "BANKS") /\
  Sorted name_before (flat_names Wwise_IDs_h "BUSSES") /\
  Sorted name_before (flat_names Wwise_IDs_h "AUDIO_DEVICES").
Proof.
  repeat split;
    repeat (apply Forall_cons || apply Forall_nil);
    apply increasing_Sorted; vm_compute; reflexivity.
Qed.

(** The order is not that of the bytes of the names as written. *)
Example not_in_byte_order :
  In "PLAY_DOOR_OPEN" (flat_names Wwise_IDs_h "EVENTS") /\
  String.compare "PLAY_DOOR_OPEN" "PLAY_DOORKNOCK" = Gt /\
  name_before "PLAY_DOOR_OPEN" "PLAY_DOORKNOCK".
Proof. repeat split; vm_compute; tauto. Qed.

(** ** Threads reading concurrently *)

Lemma fire_invariant (i : nat) (w w' : World) :
  table w = Wwise_IDs_h ->
  Forall agrees (observed w) ->
  fire i w = Some w' ->
  table w' = Wwise_IDs_h /\
  Forall agrees (observed w') /\
  List.length (observed w') = S (List.length (observed w)).
Proof.
  intros Htable Hobs Hfire. unfold fire in Hfire.
  destruct (nth_error (pending w) i) as [[|a rest]|]; try discriminate Hfire.
  inversion Hfire; subst w'; clear Hfire. simpl.
  rewrite Htable. repeat split.
  - apply exec_const_only, Wwise_IDs_h_const_only.
  - apply Forall_app. split; [exact Hobs|].
    constructor; [reflexivity|constructor].
  - rewrite length_app. simpl. lia.
Qed.

Lemma interleave_invariant (schedule : list nat) :
  forall w w',
    table w = Wwise_IDs_h ->
    Forall agrees (observed w) ->
    interleave schedule w = Some w' ->
    table w' = Wwise_IDs_h /\
    Forall agrees (observed w') /\
    List.length (observed w')
    = (List.length (observed w) + List.length schedule)%nat.
Proof.
  induction schedule as [|i later IH]; simpl; intros w w' Htable Hobs Hrun.
  - inversion Hrun; subst w'. repeat split; [exact Htable|exact Hobs|lia].
  - destruct (fire i w) as [w1|] eqn:Hfire; [|discriminate Hrun].
    destruct (fire_invariant i w w1 Htable Hobs Hfire) as [Ht1 [Ho1 Hl1]].
    destruct (IH w1 w' Ht1 Ho1 Hrun) as [Ht [Ho Hl]].
    repeat split; [exact Ht|exact Ho|lia].
Qed.

(** C8. Whatever the threads and whatever the schedule that interleaves
    their accesses, the table stays the header; every read of a name obtains
    what lookup gives for that name in the header, so two reads of one name,
    by any threads and at any points of the schedule, obtain the same
    identifier; every scheduled access is made; and a thread that has an
    access left can make it whatever the other threads have done. *)
Theorem concurrent_reads_agree
  (programs : list (list Access)) (schedule : list nat) (w : World) :
  interleave schedule (initial programs) = Some w ->
  table w = Wwise_IDs_h /\
  (forall i q o,
      In (i, Read q, o) (observed w) ->
      o = match lookup Wwise_IDs_h q with
          | Some v => Value v
          | None => Rejected
          end) /\
  (forall i j q o1 o2,
      In (i, Read q, o1) (observed w) ->
      In (j, Read q, o2) (observed w) ->
      o1 = o2) /\
  List.length (observed w) = List.length schedule /\
  (forall i a rest,
      nth_error (pending w) i = Some (a :: rest) ->
      exists w', fire i w = Some w').
Proof.
  intros Hrun.
  destruct (interleave_invariant schedule (initial programs) w
              eq_refl (Forall_nil _) Hrun) as [Htable [Hobs Hlen]].
  assert (Hread : forall i q o,
             In (i, Read q, o) (observed w) ->
             o = match lookup Wwise_IDs_h q with
                 | Some v => Value v
                 | None => Rejected
                 end).
  { intros i q o Hin. rewrite Forall_forall in Hobs.
    exact (Hobs _ Hin). }
  split; [exact Htable|].
  split; [exact Hread|].
  split.
  - intros i j q o1 o2 H1 H2.
    rewrite (Hread i q o1 H1), (Hread j q o2 H2). reflexivity.
  - split; [exact Hlen|].
    intros i a rest Hnext. unfold fire. rewrite Hnext. eexists. reflexivity.
Qed.

Lemma concurrent_reads_agree_witness :
  exists w,
    interleave [ 0; 1; 0 ]%nat (initial two_readers) = Some w /\
    table w = Wwise_IDs_h /\
    observed w =
      [ (0%nat, Read [ "AK"; "EVENTS"; "PLAY_MUSIC" ], Value 2932040671);
        (1%nat, Read [ "AK"; "EVENTS"; "PLAY_MUSIC" ], Value 2932040671);
        (0%nat, Read [ "AK"; "BANKS"; "INIT" ], Value 1355168291) ].
Proof.
  eexists. split; [reflexivity|]. split.
  - exact (proj1 (concurrent_reads_agree two_readers [ 0; 1; 0 ]%nat _ eq_refl)).
  - reflexivity.
Defined.
